(** * django_odata: error payloads and the request-scoped query cache

    A shallow embedding of [django_odata/exceptions.py] (the OData error
    taxonomy and the payload each error builds) and of the request cache that
    [tests/test_utils_caching.py] exercises, with the properties the
    specification states about them. *)

From stdpp Require Import gmap strings list sorting.

Set Warnings "-register-all".
Local Open Scope string_scope.

(** ** Python values

    The values that occur in an error payload: strings, lists and
    dictionaries with string keys ([Dict[str, Any]]).  The remaining
    constructors stand for the other JSON-like values a caller may place
    in [details]. *)

Inductive value : Type :=
| VNone
| VBool (b : bool)
| VInt (z : Z)
| VStr (s : string)
| VList (l : list value)
| VDict (d : gmap string value).

Definition as_dict (v : value) : option (gmap string value) :=
  match v with VDict d => Some d | _ => None end.

Definition as_list (v : value) : option (list value) :=
  match v with VList l => Some l | _ => None end.

(** Truthiness of a dictionary, a list and a string: [bool(x)] is
    [len(x) != 0]. *)
Definition dict_truthy (d : gmap string value) : bool :=
  negb (Nat.eqb (size d) 0).

Definition list_truthy {A} (l : list A) : bool :=
  negb (Nat.eqb (length l) 0).

Definition str_truthy (s : string) : bool :=
  negb (Nat.eqb (String.length s) 0).

(** An [Optional[list]]: [None] is falsy, and [x or []] is [x] when [x]
    is truthy. *)
Definition optional_truthy {A} (x : option (list A)) : bool :=
  match x with None => false | Some l => list_truthy l end.

Definition or_empty {A} (x : option (list A)) : list A :=
  match x with
  | Some l => if list_truthy l then l else []
  | None => []
  end.

(** [d.update(other)]: the entries of [other] win. *)
Definition dict_update (d other : gmap string value) : gmap string value :=
  other ∪ d.

(** [sub in s] on strings. *)
Fixpoint str_contains (sub s : string) : bool :=
  String.prefix sub s ||
  match s with
  | EmptyString => false
  | String _ s' => str_contains sub s'
  end.

(** ** exceptions.py *)

Module Exceptions.

(** The class of a constructed exception object. *)
Inductive error_class : Type :=
| ODataFilterError
| ODataFieldNotFoundError
| ODataInvalidFilterSyntaxError
| ODataInvalidOperatorError
| ODataInvalidValueError
| ODataExpandError.

(** An underlying exception is carried along and never inspected. *)
Definition exn : Type := string.

(** Class attributes of [ODataFilterError]; no subclass overrides them.
    [status_code] is [rest_framework.status.HTTP_400_BAD_REQUEST]. *)
Definition status_code : Z := 400.
Definition default_detail : string := "Invalid filter expression".
Definition default_code : string := "BadRequest".

(** The attributes [__init__] sets on the instance, together with the
    [detail] and [code] it hands to [APIException.__init__]. *)
Record odata_error : Type := {
  cls : error_class;
  message : string;
  error_code : string;
  target : string;
  details : gmap string value;
  original_exception : option exn;
  detail : value;
  api_code : string
}.

(** [ODataFilterError.__init__].  An omitted keyword argument is [None]
    here; [code] and [target] then take their declared defaults. *)
Definition ODataFilterError_init (c : error_class) (message : string)
    (code : option string) (target : option string)
    (details : option (gmap string value))
    (original_exception : option exn) : odata_error :=
  let self_message := message in
  let self_error_code := default "BadRequest" code in
  let self_target := default "$filter" target in
  let self_details := default ∅ details in
  let entry : gmap string value :=
    {[ "code" := VStr self_error_code;
       "message" := VStr self_message;
       "target" := VStr self_target ]} in
  let entry :=
    if dict_truthy self_details then dict_update entry self_details
    else entry in
  let error_details := [VDict entry] in
  {| cls := c;
     message := self_message;
     error_code := self_error_code;
     target := self_target;
     details := self_details;
     original_exception := original_exception;
     detail :=
       VDict {[ "error" :=
         VDict {[ "code" := VStr default_code;
                  "message" := VStr self_message;
                  "details" := VList error_details ]} ]};
     api_code := default_code |}.

(** [ODataFieldNotFoundError.__init__] *)
Definition ODataFieldNotFoundError_init (field_name model_name : string)
    (original_exception : option exn) : odata_error :=
  let message :=
    "Field '" +:+ field_name +:+ "' does not exist on entity '"
      +:+ model_name +:+ "'" in
  ODataFilterError_init ODataFieldNotFoundError message
    (Some "FieldNotFound") (Some "$filter")
    (Some {[ "field" := VStr field_name; "entity" := VStr model_name ]})
    original_exception.

(** [ODataInvalidFilterSyntaxError.__init__]; [details] defaults to the
    empty string. *)
Definition ODataInvalidFilterSyntaxError_init (filter_expression : string)
    (details : option string) (original_exception : option exn)
    : odata_error :=
  let details := default EmptyString details in
  let message := "Invalid filter expression: " +:+ filter_expression in
  let message :=
    if str_truthy details then message +:+ " - " +:+ details else message in
  ODataFilterError_init ODataInvalidFilterSyntaxError message
    (Some "InvalidFilterSyntax") (Some "$filter")
    (Some {[ "expression" := VStr filter_expression;
             "syntax_error" := VStr details ]})
    original_exception.

Definition valid_operators : list string :=
  [ "eq"; "ne"; "gt"; "ge"; "lt"; "le"; "and"; "or"; "not";
    "contains"; "startswith"; "endswith" ].

(** [ODataInvalidOperatorError.__init__] *)
Definition ODataInvalidOperatorError_init (operator filter_expression : string)
    (original_exception : option exn) : odata_error :=
  let message :=
    "Unknown operator '" +:+ operator +:+ "'. Valid operators: "
      +:+ String.concat ", " valid_operators in
  ODataFilterError_init ODataInvalidOperatorError message
    (Some "InvalidOperator") (Some "$filter")
    (Some {[ "operator" := VStr operator;
             "expression" := VStr filter_expression;
             "valid_operators" := VList (VStr <$> valid_operators) ]})
    original_exception.

(** [ODataInvalidValueError.__init__] *)
Definition ODataInvalidValueError_init (value expected_type field : string)
    (original_exception : option exn) : odata_error :=
  let message :=
    "Invalid value '" +:+ value +:+ "' for field '" +:+ field
      +:+ "'. Expected type: " +:+ expected_type in
  ODataFilterError_init ODataInvalidValueError message
    (Some "InvalidValue") (Some "$filter")
    (Some {[ "value" := VStr value;
             "expected_type" := VStr expected_type;
             "field" := VStr field ]})
    original_exception.

(** [f"'{f}'"] *)
Definition quoted (f : string) : string := "'" +:+ f +:+ "'".

(** [ODataExpandError.__init__]; [valid_fields] is [None] when omitted. *)
Definition ODataExpandError_init (field_name model_name : string)
    (valid_fields : option (list string)) (original_exception : option exn)
    : odata_error :=
  let message :=
    if optional_truthy valid_fields then
      let choices_str :=
        String.concat ", " (quoted <$> default [] valid_fields) in
      "Invalid field name(s) given in select_related: '" +:+ field_name
        +:+ "'. Choices are: " +:+ choices_str
    else
      "Invalid field name(s) given in select_related: '" +:+ field_name
        +:+ "'" in
  ODataFilterError_init ODataExpandError message
    (Some "InvalidExpandField") (Some "$expand")
    (Some {[ "field" := VStr field_name;
             "entity" := VStr model_name;
             "valid_choices" := VList (VStr <$> or_empty valid_fields) ]})
    original_exception.

(** One constructor call of the taxonomy, with its arguments. *)
Inductive raise_args : Type :=
| RaiseFilter (message : string) (code target : option string)
    (details : option (gmap string value)) (original_exception : option exn)
| RaiseFieldNotFound (field_name model_name : string)
    (original_exception : option exn)
| RaiseInvalidFilterSyntax (filter_expression : string)
    (details : option string) (original_exception : option exn)
| RaiseInvalidOperator (operator filter_expression : string)
    (original_exception : option exn)
| RaiseInvalidValue (value expected_type field : string)
    (original_exception : option exn)
| RaiseExpand (field_name model_name : string)
    (valid_fields : option (list string)) (original_exception : option exn).

Definition construct (a : raise_args) : odata_error :=
  match a with
  | RaiseFilter m c t d o => ODataFilterError_init ODataFilterError m c t d o
  | RaiseFieldNotFound f e o => ODataFieldNotFoundError_init f e o
  | RaiseInvalidFilterSyntax x d o => ODataInvalidFilterSyntaxError_init x d o
  | RaiseInvalidOperator op x o => ODataInvalidOperatorError_init op x o
  | RaiseInvalidValue v t f o => ODataInvalidValueError_init v t f o
  | RaiseExpand f e vf o => ODataExpandError_init f e vf o
  end.

(** Reading the payload: [detail["error"]] and
    [detail["error"]["details"][0]]. *)
Definition payload_error (e : odata_error) : option (gmap string value) :=
  d ← as_dict (detail e); v ← d !! "error"; as_dict v.

Definition first_detail (e : odata_error) : option (gmap string value) :=
  err ← payload_error e; v ← err !! "details"; l ← as_list v;
  x ← head l; as_dict x.

(** The three standard keys of a detail entry, before [details] is merged
    into it. *)
Definition standard_entry (code message target : string)
    : gmap string value :=
  {[ "code" := VStr code; "message" := VStr message;
     "target" := VStr target ]}.

(** The code a subclass passes to the base initialiser. *)
Definition subclass_code (a : raise_args) : option string :=
  match a with
  | RaiseFilter _ _ _ _ _ => None
  | RaiseFieldNotFound _ _ _ => Some "FieldNotFound"
  | RaiseInvalidFilterSyntax _ _ _ => Some "InvalidFilterSyntax"
  | RaiseInvalidOperator _ _ _ => Some "InvalidOperator"
  | RaiseInvalidValue _ _ _ _ => Some "InvalidValue"
  | RaiseExpand _ _ _ _ => Some "InvalidExpandField"
  end.

(** The caller's choices that bear on the reported target: only the base
    class lets the caller pass [target] and [details]. *)
Definition target_left_to_default (a : raise_args) : Prop :=
  match a with
  | RaiseFilter _ _ tgt d _ => tgt = None ∧ default ∅ d !! "target" = None
  | _ => True
  end.

Definition is_expand (a : raise_args) : bool :=
  match a with RaiseExpand _ _ _ _ => true | _ => false end.

(** The same constructor call with another underlying exception. *)
Definition with_original (a : raise_args) (o : option exn) : raise_args :=
  match a with
  | RaiseFilter m c t d _ => RaiseFilter m c t d o
  | RaiseFieldNotFound f e _ => RaiseFieldNotFound f e o
  | RaiseInvalidFilterSyntax x d _ => RaiseInvalidFilterSyntax x d o
  | RaiseInvalidOperator op x _ => RaiseInvalidOperator op x o
  | RaiseInvalidValue v t f _ => RaiseInvalidValue v t f o
  | RaiseExpand f e vf _ => RaiseExpand f e vf o
  end.

End Exceptions.

(** ** The request cache of django_odata.utils

    [utils.py] is exercised by [tests/test_utils_caching.py] and described
    in section 4.5 of the specification.  Objects live in a heap and are
    named by their address, so that [is] is equality of addresses and
    structural equality is equality of the stored plans. *)

Module RequestCache.

(** A parameter mapping, in insertion order: a Python [dict] from option
    names to strings.  Its keys are pairwise distinct. *)
Definition params : Type := list (string * string).

Definition well_formed (m : params) : Prop := NoDup m.*1.

(** The order of [sorted(m.items())] on the items of a mapping: keys are
    compared lexicographically (values are never reached, the keys being
    distinct). *)
Definition item_le (a b : string * string) : Prop :=
  String.le a.1 b.1.

(** Modelled from the spec: the canonical (order-independent) form of
    [raw_params] that the cache key is computed from; [utils.py], which
    builds it, is missing.  The items are sorted by option name. *)
Definition canonical (m : params) : params := merge_sort item_le m.

(** Object identities and cache scopes (one per request context). *)
Definition ref : Type := nat.
Definition scope : Type := nat.

Section Cache.

(** A query plan and a translation error; plans are compared by their
    structure. *)
Context {Plan Error : Type}.

(** The digest ([hashlib]) over the entity identity and the canonical
    parameters, and the translation proper (lexer, parser, validator and
    plan builder), [build_fn] in the specification's contract
    [resolve_or_build(entity_identity, raw_params, build_fn)]. *)
Context (digest : string → params → string).
Context (build_fn : string → params → Error + Plan).

(** Modelled from the spec: [_generate_request_cache_key] of the missing
    [utils.py], "a stable digest over the entity identity and the
    canonical (order-independent) serialization of [raw_params]". *)
Definition _generate_request_cache_key (entity : string) (m : params)
    : string :=
  digest entity (canonical m).

(** The heap of plan objects and, per scope, the cache from keys to the
    plan object stored under them. *)
Record state : Type := {
  heap : list Plan;
  caches : gmap scope (gmap string ref)
}.

Definition initial : state := {| heap := []; caches := ∅ |}.

(** The cache of the active scope; a scope that was never written to has
    the empty cache. *)
Definition scope_cache (st : state) (c : scope) : gmap string ref :=
  default ∅ (caches st !! c).

(** Modelled from the spec: [apply_odata_query_params] of the missing
    [utils.py], run in scope [c].  "On key hit within the active scope,
    returns the previously stored Query Plan (same shared, read-only
    instance).  On miss, invokes [build_fn] to construct a fresh plan,
    stores it keyed in the active scope, and returns it."  A failing
    translation raises and stores nothing. *)
Definition apply_odata_query_params (c : scope) (entity : string)
    (m : params) (st : state) : (Error + ref) * state :=
  let key := _generate_request_cache_key entity m in
  match scope_cache st c !! key with
  | Some r => (inr r, st)
  | None =>
      match build_fn entity m with
      | inl err => (inl err, st)
      | inr plan =>
          let r := length (heap st) in
          (inr r,
           {| heap := heap st ++ [plan];
              caches := <[c := <[key := r]> (scope_cache st c)]> (caches st) |})
      end
  end.

(** Modelled from the spec: [clear_odata_cache] of the missing [utils.py],
    run in scope [c]: "drops all entries in the active scope". *)
Definition clear_odata_cache (c : scope) (st : state) : state :=
  {| heap := heap st; caches := <[c := ∅]> (caches st) |}.

(** The calls a program makes on the cache, and their effect in order. *)
Inductive op : Type :=
| Apply (c : scope) (entity : string) (m : params)
| Clear (c : scope).

Definition step (o : op) (st : state) : state :=
  match o with
  | Apply c entity m => (apply_odata_query_params c entity m st).2
  | Clear c => clear_odata_cache c st
  end.

Definition run (ops : list op) (st : state) : state :=
  foldl (λ st o, step o st) st ops.

(** The plan object at an address. *)
Definition deref (st : state) (r : ref) : option Plan := heap st !! r.

(** No call of the history whose key coincides with that of [(entity, m)]
    translates to anything else: the digest does not collide on the
    history. *)
Definition collision_free (entity : string) (m : params) (o : op) : Prop :=
  match o with
  | Apply _ entity' m' =>
      _generate_request_cache_key entity' m'
        = _generate_request_cache_key entity m →
      build_fn entity' m' = build_fn entity m
  | Clear _ => True
  end.

(** What every history of calls maintains, as far as [(entity, m)] is
    concerned: cached addresses are allocated, no object is cached in two
    scopes, and an entry under the key of [(entity, m)] holds the plan
    [(entity, m)] translates to. *)
Record cache_inv (entity : string) (m : params) (st : state) : Prop := {
  inv_valid : ∀ c k r,
    scope_cache st c !! k = Some r → r < length (heap st);
  inv_disjoint : ∀ c1 c2 k1 k2 r,
    scope_cache st c1 !! k1 = Some r → scope_cache st c2 !! k2 = Some r →
    c1 = c2;
  inv_sound : ∀ c r,
    scope_cache st c !! _generate_request_cache_key entity m = Some r →
    ∃ plan, build_fn entity m = inr plan ∧ deref st r = Some plan
}.

(** What every history of calls maintains, whatever the digest: cached
    addresses are allocated, and an object is cached under one key of one
    scope only. *)
Record alloc_inv (st : state) : Prop := {
  alloc_valid : ∀ c k r,
    scope_cache st c !! k = Some r → r < length (heap st);
  alloc_inj : ∀ c1 c2 k1 k2 r,
    scope_cache st c1 !! k1 = Some r → scope_cache st c2 !! k2 = Some r →
    c1 = c2 ∧ k1 = k2
}.

End Cache.

Arguments state : clear implicits.

(** A stand-in digest and translation to run the cache on: the digest
    joins the entity and the canonical items, the translation rejects the
    empty entity and otherwise yields the items it was given, sorted. *)
Definition demo_digest (entity : string) (l : params) : string :=
  entity +:+ "?" +:+ String.concat "&" ((λ kv, kv.1 +:+ "=" +:+ kv.2) <$> l).

Definition demo_build (entity : string) (m : params) : string + params :=
  if decide (entity = EmptyString) then inl "unknown entity"
  else inr (canonical m).

(** The mapping of [test_generate_cache_key_parameter_ordering], and a
    history to start from: the calls of [test_cache_miss_different_params]
    in one scope, the same mapping inserted in the other order in a second
    scope, a failing call in a third, and a clear of the first. *)
Definition demo_params : params :=
  [("$orderby", "name"); ("$filter", "name eq 'test'")].

Definition demo_history : list op :=
  [ Apply 0 "test.mockmodel" [("$filter", "name eq 'test'")];
    Apply 0 "test.mockmodel" [("$filter", "name eq 'other'")];
    Apply 1 "test.mockmodel"
      [("$filter", "name eq 'test'"); ("$orderby", "name")];
    Apply 2 EmptyString [("$top", "50")];
    Clear 0 ].

End RequestCache.

(** * Properties *)

(** ** Strings *)

Section Strings.

Lemma append_cons (a : Ascii.ascii) (s t : string) :
  String a s +:+ t = String a (s +:+ t).
Proof. reflexivity. Qed.

Lemma append_nil_r (s : string) : s +:+ EmptyString = s.
Proof. induction s as [|a s IH]; [done|]. by rewrite append_cons, IH. Qed.

Lemma append_assoc (s1 s2 s3 : string) :
  (s1 +:+ s2) +:+ s3 = s1 +:+ s2 +:+ s3.
Proof.
  induction s1 as [|a s1 IH]; [done|]. by rewrite !append_cons, IH.
Qed.

Lemma prefix_append (sub post : string) :
  String.prefix sub (sub +:+ post) = true.
Proof.
  induction sub as [|a sub IH]; [by destruct post|].
  rewrite append_cons. simpl. by destruct (Ascii.ascii_dec a a).
Qed.

Lemma str_contains_unfold (sub s : string) :
  str_contains sub s =
  String.prefix sub s ||
  match s with EmptyString => false | String _ s' => str_contains sub s' end.
Proof. by destruct s. Qed.

Lemma str_contains_prefix (sub post : string) :
  str_contains sub (sub +:+ post) = true.
Proof. by rewrite str_contains_unfold, prefix_append. Qed.

Lemma str_contains_append_r (sub pre s : string) :
  str_contains sub s = true → str_contains sub (pre +:+ s) = true.
Proof.
  intros H. induction pre as [|a pre IH]; [done|].
  rewrite append_cons, str_contains_unfold, IH. apply orb_true_r.
Qed.

Lemma str_contains_intro (pre sub post : string) :
  str_contains sub (pre +:+ sub +:+ post) = true.
Proof. apply str_contains_append_r, str_contains_prefix. Qed.

Lemma str_contains_self (s : string) : str_contains s s = true.
Proof. rewrite <-(append_nil_r s) at 2. apply str_contains_prefix. Qed.

(** Every element of a joined list occurs in the result. *)
Lemma str_contains_concat (sep y : string) (l : list string) :
  y ∈ l → str_contains y (String.concat sep l) = true.
Proof.
  induction l as [|x [|x' l] IH]; intros Hy.
  - by apply elem_of_nil in Hy.
  - apply list_elem_of_singleton in Hy as ->. apply str_contains_self.
  - change (String.concat sep (x :: x' :: l))
      with (x +:+ sep +:+ String.concat sep (x' :: l)).
    apply elem_of_cons in Hy as [->|Hy]; [apply str_contains_prefix|].
    by apply str_contains_append_r, str_contains_append_r, IH.
Qed.

End Strings.

(** ** Error payloads *)

Section ErrorPayloads.

Import Exceptions.

Lemma detail_init c m code tgt d o :
  detail (ODataFilterError_init c m code tgt d o) =
  VDict {[ "error" :=
    VDict {[ "code" := VStr "BadRequest";
             "message" := VStr m;
             "details" :=
               VList [VDict (default ∅ d ∪
                 standard_entry (default "BadRequest" code) m
                   (default "$filter" tgt))] ]} ]}.
Proof.
  unfold ODataFilterError_init, dict_truthy, dict_update, standard_entry.
  cbn [detail]. destruct (size (default ∅ d)) eqn:Hsz; [|done].
  apply map_size_empty_iff in Hsz. rewrite Hsz. cbn [negb Nat.eqb].
  by rewrite (left_id_L ∅ (∪)).
Qed.

Lemma first_detail_init c m code tgt d o :
  first_detail (ODataFilterError_init c m code tgt d o) =
  Some (default ∅ d ∪
    standard_entry (default "BadRequest" code) m (default "$filter" tgt)).
Proof. unfold first_detail, payload_error. by rewrite detail_init. Qed.

Lemma payload_error_init c m code tgt d o :
  payload_error (ODataFilterError_init c m code tgt d o) =
  Some {[ "code" := VStr "BadRequest";
          "message" := VStr m;
          "details" :=
            VList [VDict (default ∅ d ∪
              standard_entry (default "BadRequest" code) m
                (default "$filter" tgt))] ]}.
Proof. unfold payload_error. by rewrite detail_init. Qed.

(** Every constructor of the taxonomy goes through
    [ODataFilterError.__init__]. *)
Lemma construct_via_init (a : raise_args) :
  ∃ c m code tgt d o,
    construct a = ODataFilterError_init c m code tgt d o.
Proof. destruct a; simpl; repeat eexists. Qed.

Lemma details_init c m code tgt d o :
  details (ODataFilterError_init c m code tgt d o) = default ∅ d.
Proof. reflexivity. Qed.

Lemma message_init c m code tgt d o :
  message (ODataFilterError_init c m code tgt d o) = m.
Proof. reflexivity. Qed.

Lemma standard_entry_keys code m tgt d k :
  k ∈ ["code"; "message"; "target"] →
  is_Some ((d ∪ standard_entry code m tgt) !! k).
Proof.
  intros Hk. apply lookup_union_is_Some. right.
  unfold standard_entry.
  repeat (apply elem_of_cons in Hk as [->|Hk]; [by eexists|]).
  by apply elem_of_nil in Hk.
Qed.

(** C3: every error kind builds the payload
    [{error: {code, message, details: [entry]}}], whose single detail
    entry has the keys [code], [message] and [target] and carries every
    entry of the error's [details]. *)
Theorem error_payload_shape (a : raise_args) :
  ∃ entry : gmap string value,
    detail (construct a) =
      VDict {[ "error" :=
        VDict {[ "code" := VStr default_code;
                 "message" := VStr (message (construct a));
                 "details" := VList [VDict entry] ]} ]}
    ∧ first_detail (construct a) = Some entry
    ∧ is_Some (entry !! "code")
    ∧ is_Some (entry !! "message")
    ∧ is_Some (entry !! "target")
    ∧ details (construct a) ⊆ entry.
Proof.
  destruct (construct_via_init a) as (c & m & code & tgt & d & o & ->).
  eexists. split; [apply detail_init|].
  split; [apply first_detail_init|].
  rewrite details_init.
  split_and!; try (apply standard_entry_keys; set_solver).
  apply map_union_subseteq_l.
Qed.

(** C9: the top-level [error.code] (and the code handed to
    [APIException]) is the literal ["BadRequest"] for every constructor,
    whatever code was passed; the code of a subclass is the [code] of the
    first detail entry, and differs from ["BadRequest"]. *)
Theorem top_level_code_is_BadRequest (a : raise_args) :
  (payload_error (construct a) ≫= (.!! "code")) = Some (VStr "BadRequest")
  ∧ api_code (construct a) = "BadRequest"
  ∧ match subclass_code a with
    | Some k =>
        (first_detail (construct a) ≫= (.!! "code")) = Some (VStr k)
        ∧ error_code (construct a) = k
        ∧ k ≠ "BadRequest"
    | None => True
    end.
Proof.
  split; [|split].
  - destruct (construct_via_init a) as (c & m & code & tgt & d & o & ->).
    by rewrite payload_error_init.
  - by destruct a.
  - destruct a; simpl; [done|..]; by split_and!.
Qed.

(** C10: a non-empty [details] dictionary is merged into the first detail
    entry, its entries winning: the entry is the standard entry ([code],
    [message], [target]) updated with the caller's dictionary, so whatever
    the caller supplies under a key, [code], [message] and [target]
    included, is what the entry reports under that key, and every key the
    caller does not supply keeps its standard value.  The top-level code
    and message are not affected. *)
Theorem details_override_standard_keys c m code tgt
    (d : gmap string value) o (k : string) (v : value) :
  d !! k = Some v →
  let e := ODataFilterError_init c m code tgt (Some d) o in
  let standard : gmap string value :=
    {[ "code" := VStr (default "BadRequest" code);
       "message" := VStr m;
       "target" := VStr (default "$filter" tgt) ]} in
  first_detail e = Some (d ∪ standard)
  ∧ (first_detail e ≫= (.!! k)) = Some v
  ∧ (∀ k', d !! k' = None → (first_detail e ≫= (.!! k')) = standard !! k')
  ∧ details e = d
  ∧ (payload_error e ≫= (.!! "code")) = Some (VStr "BadRequest")
  ∧ (payload_error e ≫= (.!! "message")) = Some (VStr m).
Proof.
  intros Hk e standard. subst e standard.
  rewrite first_detail_init, payload_error_init.
  split_and!; try done.
  - simpl. by apply lookup_union_Some_l.
  - intros k' Hk'. simpl. by rewrite lookup_union_r.
Qed.

Lemma details_override_standard_keys_witness :
  let d : gmap string value :=
    {[ "code" := VStr "Custom"; "target" := VStr "$orderby" ]} in
  let e :=
    ODataFilterError_init ODataFilterError "bad filter" (Some "FieldNotFound")
      None (Some d) None in
  let standard : gmap string value :=
    {[ "code" := VStr "FieldNotFound";
       "message" := VStr "bad filter";
       "target" := VStr "$filter" ]} in
  first_detail e = Some (d ∪ standard)
  ∧ (first_detail e ≫= (.!! "target")) = Some (VStr "$orderby")
  ∧ (∀ k', d !! k' = None → (first_detail e ≫= (.!! k')) = standard !! k')
  ∧ details e = d
  ∧ (payload_error e ≫= (.!! "code")) = Some (VStr "BadRequest")
  ∧ (payload_error e ≫= (.!! "message")) = Some (VStr "bad filter").
Proof.
  apply (details_override_standard_keys ODataFilterError "bad filter"
           (Some "FieldNotFound") None
           {[ "code" := VStr "Custom"; "target" := VStr "$orderby" ]}
           None "target" (VStr "$orderby")).
  reflexivity.
Defined.

(** C6: the target reported in the detail entry is ["$expand"] for an
    expansion error and ["$filter"] for every other kind; for the base
    class, which takes [target] as an argument, that is its default. *)
Theorem reported_target (a : raise_args) :
  target_left_to_default a →
  let t := if is_expand a then "$expand" else "$filter" in
  (first_detail (construct a) ≫= (.!! "target")) = Some (VStr t)
  ∧ target (construct a) = t.
Proof.
  destruct a as [m code tgt d o| | | | |]; simpl; try by split.
  intros [-> Hd]. rewrite first_detail_init. split; [|done].
  simpl. by rewrite lookup_union_r.
Qed.

Lemma reported_target_witness :
  let a := RaiseFilter "bad filter" (Some "InvalidValue") None
             (Some {[ "value" := VStr "x" ]}) None in
  (first_detail (construct a) ≫= (.!! "target")) = Some (VStr "$filter")
  ∧ target (construct a) = "$filter".
Proof.
  apply (reported_target
           (RaiseFilter "bad filter" (Some "InvalidValue") None
              (Some {[ "value" := VStr "x" ]}) None)).
  split; reflexivity.
Defined.

(** C4: an invalid-operator error, for any operator and expression,
    lists the valid operators under [valid_operators] in its payload (and
    in its message), and that list is exactly the set of the twelve
    operators of the specification. *)
Theorem invalid_operator_enumerates_valid_operators
    (operator filter_expression : string) (o : option exn) :
  let e := ODataInvalidOperatorError_init operator filter_expression o in
  (first_detail e ≫= (.!! "valid_operators"))
    = Some (VList (VStr <$> valid_operators))
  ∧ details e !! "valid_operators" = Some (VList (VStr <$> valid_operators))
  ∧ message e =
      "Unknown operator '" +:+ operator +:+
      "'. Valid operators: eq, ne, gt, ge, lt, le, and, or, not, contains, startswith, endswith"
  ∧ NoDup valid_operators
  ∧ list_to_set valid_operators =@{gset string}
      {[ "eq"; "ne"; "gt"; "ge"; "lt"; "le"; "and"; "or"; "not";
         "contains"; "startswith"; "endswith" ]}.
Proof.
  intros e. subst e. unfold ODataInvalidOperatorError_init.
  rewrite first_detail_init, details_init. split_and!; try done.
  apply (bool_decide_unpack (NoDup valid_operators)). by vm_compute.
Qed.

(** C5: a field-not-found error names the field and the entity: both
    occur in its message, and its payload carries them under [field] and
    [entity]. *)
Theorem field_not_found_names_field_and_entity
    (field_name model_name : string) (o : option exn) :
  let e := ODataFieldNotFoundError_init field_name model_name o in
  message e =
    "Field '" +:+ field_name +:+ "' does not exist on entity '"
      +:+ model_name +:+ "'"
  ∧ str_contains field_name (message e) = true
  ∧ str_contains model_name (message e) = true
  ∧ (first_detail e ≫= (.!! "field")) = Some (VStr field_name)
  ∧ (first_detail e ≫= (.!! "entity")) = Some (VStr model_name)
  ∧ (first_detail e ≫= (.!! "code")) = Some (VStr "FieldNotFound").
Proof.
  intros e. subst e. unfold ODataFieldNotFoundError_init.
  rewrite first_detail_init, message_init. split_and!; try done.
  - apply str_contains_intro.
  - do 3 apply str_contains_append_r. apply str_contains_prefix.
Qed.

Lemma or_empty_default {A} (x : option (list A)) : or_empty x = default [] x.
Proof. by destruct x as [[|a l]|]. Qed.

(** C7: an expansion error carries the field, the entity and the list of
    valid choices in its payload (the empty list when none was given);
    when a non-empty list is given, its message enumerates the choices,
    each one quoted. *)
Theorem expand_error_carries_valid_choices
    (field_name model_name : string) (valid_fields : option (list string))
    (o : option exn) :
  let e := ODataExpandError_init field_name model_name valid_fields o in
  (first_detail e ≫= (.!! "field")) = Some (VStr field_name)
  ∧ (first_detail e ≫= (.!! "entity")) = Some (VStr model_name)
  ∧ (first_detail e ≫= (.!! "valid_choices"))
      = Some (VList (VStr <$> default [] valid_fields))
  ∧ details e !! "valid_choices"
      = Some (VList (VStr <$> default [] valid_fields))
  ∧ (first_detail e ≫= (.!! "target")) = Some (VStr "$expand")
  ∧ match valid_fields with
    | Some (f :: fs) =>
        message e =
          "Invalid field name(s) given in select_related: '" +:+ field_name
            +:+ "'. Choices are: "
            +:+ String.concat ", " (quoted <$> f :: fs)
        ∧ Forall (λ x, str_contains (quoted x) (message e) = true) (f :: fs)
    | _ =>
        message e =
          "Invalid field name(s) given in select_related: '" +:+ field_name
            +:+ "'"
    end.
Proof.
  intros e. subst e. unfold ODataExpandError_init.
  rewrite first_detail_init, message_init, details_init, or_empty_default.
  split_and!; try done.
  destruct valid_fields as [[|f fs]|]; [done| |done].
  split; [done|]. apply Forall_forall. intros x Hx.
  do 3 apply str_contains_append_r.
  by apply str_contains_concat, list_elem_of_fmap_2.
Qed.

(** ** Further properties of exceptions.py *)

(** X1: an invalid-syntax error names the expression in its message and
    appends the detail text after [" - "] only when that text is not
    empty; its payload carries the expression and the text (the empty
    string when omitted), and omitting the text is the same as passing
    the empty string. *)
Theorem invalid_filter_syntax_message_and_payload
    (filter_expression : string) (d : option string) (o : option exn) :
  let e := ODataInvalidFilterSyntaxError_init filter_expression d o in
  let text := default EmptyString d in
  message e =
    match text with
    | EmptyString => "Invalid filter expression: " +:+ filter_expression
    | String _ _ =>
        "Invalid filter expression: " +:+ filter_expression
          +:+ " - " +:+ text
    end
  ∧ str_contains filter_expression (message e) = true
  ∧ str_contains text (message e) = true
  ∧ (first_detail e ≫= (.!! "expression")) = Some (VStr filter_expression)
  ∧ (first_detail e ≫= (.!! "syntax_error")) = Some (VStr text)
  ∧ ODataInvalidFilterSyntaxError_init filter_expression None o
    = ODataInvalidFilterSyntaxError_init filter_expression
        (Some EmptyString) o.
Proof.
  intros e text. subst e text.
  unfold ODataInvalidFilterSyntaxError_init.
  rewrite first_detail_init, message_init.
  destruct d as [[|a t]|];
    cbn [from_option id str_truthy String.length Nat.eqb negb].
  - split_and!; try done.
    apply str_contains_append_r, str_contains_self.
  - rewrite append_assoc. split_and!; try done.
    + apply str_contains_intro.
    + do 3 apply str_contains_append_r. apply str_contains_self.
  - split_and!; try done.
    apply str_contains_append_r, str_contains_self.
Qed.

(** X2: an invalid-value error names the value, the field and the
    expected type, in its message and under [value], [field] and
    [expected_type] in its payload. *)
Theorem invalid_value_names_value_field_and_type
    (value expected_type field : string) (o : option exn) :
  let e := ODataInvalidValueError_init value expected_type field o in
  str_contains value (message e) = true
  ∧ str_contains field (message e) = true
  ∧ str_contains expected_type (message e) = true
  ∧ (first_detail e ≫= (.!! "value")) = Some (VStr value)
  ∧ (first_detail e ≫= (.!! "field")) = Some (VStr field)
  ∧ (first_detail e ≫= (.!! "expected_type")) = Some (VStr expected_type)
  ∧ (first_detail e ≫= (.!! "target")) = Some (VStr "$filter").
Proof.
  intros e. subst e. unfold ODataInvalidValueError_init.
  rewrite first_detail_init, message_init. split_and!; try done.
  - apply str_contains_intro.
  - do 3 apply str_contains_append_r. apply str_contains_prefix.
  - do 5 apply str_contains_append_r. apply str_contains_self.
Qed.

(** X3: an invalid-operator error names the offending operator in its
    message and carries it, with the expression it came from, under
    [operator] and [expression] in its payload. *)
Theorem invalid_operator_names_operator_and_expression
    (operator filter_expression : string) (o : option exn) :
  let e := ODataInvalidOperatorError_init operator filter_expression o in
  str_contains operator (message e) = true
  ∧ (first_detail e ≫= (.!! "operator")) = Some (VStr operator)
  ∧ (first_detail e ≫= (.!! "expression"))
      = Some (VStr filter_expression)
  ∧ dom (details e)
      =@{gset string} {[ "operator"; "expression"; "valid_operators" ]}.
Proof.
  intros e. subst e. unfold ODataInvalidOperatorError_init.
  rewrite first_detail_init, message_init, details_init.
  split_and!; try done.
  apply str_contains_intro.
Qed.

(** X4: without details, be they omitted or an empty dictionary, the
    detail entry has the three standard keys and nothing else, and the
    two ways of passing no details build the same error. *)
Theorem no_details_entry_is_standard c (m : string)
    (code tgt : option string) (o : option exn) :
  first_detail (ODataFilterError_init c m code tgt None o)
    = Some {[ "code" := VStr (default "BadRequest" code);
              "message" := VStr m;
              "target" := VStr (default "$filter" tgt) ]}
  ∧ details (ODataFilterError_init c m code tgt None o) = ∅
  ∧ ODataFilterError_init c m code tgt (Some ∅) o
    = ODataFilterError_init c m code tgt None o.
Proof. done. Qed.

(** X5: for every constructor, the keys of the detail entry are the three
    standard keys and the keys of the error's [details], no others. *)
Theorem detail_entry_keys (a : raise_args) :
  ∃ entry : gmap string value,
    first_detail (construct a) = Some entry
    ∧ dom entry
      =@{gset string}
        {[ "code"; "message"; "target" ]} ∪ dom (details (construct a)).
Proof.
  destruct (construct_via_init a) as (c & m & code & tgt & d & o & ->).
  eexists. split; [apply first_detail_init|].
  rewrite details_init, dom_union_L. unfold standard_entry.
  rewrite !dom_insert_L, dom_singleton_L.
  apply set_eq. intros x. rewrite !elem_of_union, !elem_of_singleton. tauto.
Qed.

(** X6: the merge of [details] is per key: a standard key the caller's
    dictionary does not contain keeps its standard value in the detail
    entry. *)
Theorem unsupplied_standard_keys_keep_values c (m : string)
    (code tgt : option string) (d : option (gmap string value))
    (o : option exn) (k : string) :
  k ∈ ["code"; "message"; "target"] →
  default ∅ d !! k = None →
  (first_detail (ODataFilterError_init c m code tgt d o) ≫= (.!! k))
  = ({[ "code" := VStr (default "BadRequest" code);
        "message" := VStr m;
        "target" := VStr (default "$filter" tgt) ]}
       : gmap string value) !! k
  ∧ is_Some (first_detail (ODataFilterError_init c m code tgt d o)
               ≫= (.!! k)).
Proof.
  intros Hk Hd. rewrite first_detail_init. simpl.
  rewrite lookup_union_r by done. split; [done|].
  repeat (apply elem_of_cons in Hk as [->|Hk]; [by eexists|]).
  by apply elem_of_nil in Hk.
Qed.

Lemma unsupplied_standard_keys_keep_values_witness :
  (first_detail
     (ODataFilterError_init ODataFilterError "bad filter" None None
        (Some {[ "code" := VStr "Custom" ]}) None) ≫= (.!! "target"))
  = ({[ "code" := VStr "BadRequest";
        "message" := VStr "bad filter";
        "target" := VStr "$filter" ]} : gmap string value) !! "target"
  ∧ is_Some
      (first_detail
         (ODataFilterError_init ODataFilterError "bad filter" None None
            (Some {[ "code" := VStr "Custom" ]}) None) ≫= (.!! "target")).
Proof.
  apply (unsupplied_standard_keys_keep_values ODataFilterError "bad filter"
           None None (Some {[ "code" := VStr "Custom" ]}) None "target").
  - apply (bool_decide_unpack _). vm_compute. reflexivity.
  - reflexivity.
Defined.



(** X8: the underlying exception is kept on the exception object and
    nowhere else: for every constructor, the payload, the message and the
    other attributes do not depend on it. *)
Theorem original_exception_never_reaches_payload
    (a : raise_args) (o : option exn) :
  let e := construct a in
  let e' := construct (with_original a o) in
  original_exception e' = o
  ∧ detail e' = detail e
  ∧ message e' = message e
  ∧ error_code e' = error_code e
  ∧ target e' = target e
  ∧ details e' = details e
  ∧ cls e' = cls e.
Proof. by destruct a. Qed.

End ErrorPayloads.

(** ** The request cache *)

Section RequestCacheProps.

Import RequestCache.

#[local] Instance item_le_trans : Transitive item_le.
Proof. intros x y z. unfold item_le. apply transitivity. Qed.

#[local] Instance item_le_total : Total item_le.
Proof. intros x y. unfold item_le. apply total, _. Qed.

(** In a well-formed mapping an option name determines its item. *)
Lemma well_formed_item_eq (m : params) (x y : string * string) :
  well_formed m → x ∈ m → y ∈ m → x.1 = y.1 → x = y.
Proof.
  unfold well_formed. induction m as [|z m IH]; intros Hnd Hx Hy Hk.
  { by apply elem_of_nil in Hx. }
  rewrite fmap_cons in Hnd. apply NoDup_cons in Hnd as [Hz Hnd].
  apply elem_of_cons in Hx as [->|Hx]; apply elem_of_cons in Hy as [->|Hy];
    [done| | |by apply IH].
  - exfalso. apply Hz. rewrite Hk. by apply list_elem_of_fmap_2.
  - exfalso. apply Hz. rewrite <-Hk. by apply list_elem_of_fmap_2.
Qed.

Lemma canonical_Permutation (m : params) : canonical m ≡ₚ m.
Proof. apply merge_sort_Permutation. Qed.

Lemma canonical_sorted (m : params) : StronglySorted item_le (canonical m).
Proof. apply StronglySorted_merge_sort; apply _. Qed.

(** The canonical form does not depend on the insertion order. *)
Lemma canonical_order_independent (m1 m2 : params) :
  well_formed m1 → m1 ≡ₚ m2 → canonical m1 = canonical m2.
Proof.
  intros Hwf Hperm.
  apply (StronglySorted_unique_strong item_le);
    [|apply canonical_sorted..|by rewrite !canonical_Permutation].
  intros x y Hx Hy Hxy Hyx.
  rewrite canonical_Permutation in Hx.
  rewrite canonical_Permutation, <-Hperm in Hy.
  apply (well_formed_item_eq m1); [done..|].
  by apply (anti_symm String.le).
Qed.

Section WithTranslation.

Context {Plan Error : Type}.
Context (digest : string → params → string).
Context (build_fn : string → params → Error + Plan).

(** C2: two parameter mappings with the same items, inserted in different
    orders, have the same cache key for the same entity. *)
Theorem cache_key_order_independent (entity : string) (m1 m2 : params) :
  well_formed m1 → m1 ≡ₚ m2 →
  _generate_request_cache_key digest entity m1
    = _generate_request_cache_key digest entity m2.
Proof.
  intros Hwf Hperm. unfold _generate_request_cache_key.
  by rewrite (canonical_order_independent m1 m2).
Qed.

End WithTranslation.

Lemma cache_key_order_independent_witness :
  _generate_request_cache_key demo_digest "test.mockmodel"
    [("$filter", "name eq 'test'"); ("$orderby", "name")]
  = _generate_request_cache_key demo_digest "test.mockmodel"
    [("$orderby", "name"); ("$filter", "name eq 'test'")].
Proof.
  apply (cache_key_order_independent demo_digest "test.mockmodel"
           [("$filter", "name eq 'test'"); ("$orderby", "name")]
           [("$orderby", "name"); ("$filter", "name eq 'test'")]).
  - apply (bool_decide_unpack _). vm_compute. reflexivity.
  - apply perm_swap.
Defined.

Section Invariant.

Context {Plan Error : Type}.
Context (digest : string → params → string).
Context (build_fn : string → params → Error + Plan).

#[local] Abbreviation key := (_generate_request_cache_key digest).
#[local] Abbreviation apply_in :=
  (apply_odata_query_params digest build_fn).
#[local] Abbreviation inv := (cache_inv digest build_fn).

Implicit Types (st : state Plan) (c : scope) (m : params) (r : ref).

Lemma scope_cache_insert st c c' (x : gmap string ref) (h : list Plan) :
  scope_cache {| heap := h; caches := <[c := x]> (caches st) |} c' =
  if decide (c = c') then x else scope_cache st c'.
Proof.
  unfold scope_cache. simpl. rewrite lookup_insert.
  by destruct (decide (c = c')).
Qed.

(** A call is a hit, a failed translation, or a miss that allocates. *)
Lemma apply_cases c entity m st :
  (∃ r, scope_cache st c !! key entity m = Some r
        ∧ apply_in c entity m st = (inr r, st))
  ∨ (∃ err, scope_cache st c !! key entity m = None
        ∧ build_fn entity m = inl err
        ∧ apply_in c entity m st = (inl err, st))
  ∨ (∃ plan, scope_cache st c !! key entity m = None
        ∧ build_fn entity m = inr plan
        ∧ apply_in c entity m st =
            (inr (length (heap st)),
             {| heap := heap st ++ [plan];
                caches :=
                  <[c := <[key entity m := length (heap st)]>
                           (scope_cache st c)]> (caches st) |})).
Proof.
  unfold apply_odata_query_params.
  destruct (scope_cache st c !! key entity m) as [r|] eqn:Hhit;
    [left; eauto|right].
  destruct (build_fn entity m) as [err|plan]; [left|right]; eauto.
Qed.

(** Objects are never moved or freed. *)
Lemma apply_deref_mono c entity m st r plan :
  deref st r = Some plan →
  deref (apply_in c entity m st).2 r = Some plan.
Proof.
  intros Hr.
  destruct (apply_cases c entity m st)
    as [(?&_&->)|[(?&_&_&->)|(?&_&_&->)]]; [done..|].
  by apply lookup_app_l_Some.
Qed.

(** A call leaves the caches of the other scopes as they were. *)
Lemma apply_other_scope c c' entity m st :
  c ≠ c' →
  scope_cache (apply_in c entity m st).2 c' = scope_cache st c'.
Proof.
  intros Hc.
  destruct (apply_cases c entity m st)
    as [(?&_&->)|[(?&_&_&->)|(?&_&_&->)]]; [done..|].
  simpl. rewrite scope_cache_insert. by destruct (decide (c = c')).
Qed.

(** Calling again with the same arguments returns the same result and
    changes nothing. *)
Lemma apply_again c entity m st :
  apply_in c entity m (apply_in c entity m st).2
  = ((apply_in c entity m st).1, (apply_in c entity m st).2).
Proof.
  destruct (apply_cases c entity m st)
    as [(r&Hhit&Heq)|[(err&Hmiss&Hb&Heq)|(plan&Hmiss&Hb&Heq)]];
    rewrite Heq; simpl; [done..|].
  unfold apply_odata_query_params at 1.
  by rewrite scope_cache_insert, decide_True, lookup_insert_eq.
Qed.

Lemma inv_initial entity m : inv entity m initial.
Proof.
  split; unfold scope_cache; simpl; intros *; by rewrite lookup_empty.
Qed.

Lemma inv_clear entity m c st :
  inv entity m st → inv entity m (clear_odata_cache c st).
Proof.
  intros [Hv Hd Hs].
  assert (∀ c' k r, scope_cache (clear_odata_cache c st) c' !! k = Some r →
                    scope_cache st c' !! k = Some r) as Hold.
  { intros c' k r. unfold clear_odata_cache. rewrite scope_cache_insert.
    destruct (decide (c = c')); [by rewrite lookup_empty|done]. }
  split.
  - intros c' k r ?%Hold. by eapply Hv.
  - intros c1 c2 k1 k2 r ?%Hold ?%Hold. by eapply Hd.
  - intros c' r ?%Hold. by eapply Hs.
Qed.

Lemma inv_apply entity m c entity' m' st :
  collision_free digest build_fn entity m (Apply c entity' m') →
  inv entity m st → inv entity m (apply_in c entity' m' st).2.
Proof.
  intros Hfree [Hv Hd Hs].
  destruct (apply_cases c entity' m' st)
    as [(?&_&->)|[(?&_&_&->)|(plan&Hmiss&Hb&->)]]; [done..|].
  simpl.
  set (st' := {| heap := heap st ++ [plan]; caches := _ |}).
  assert (∀ c' k r, scope_cache st' c' !! k = Some r →
            (c' = c ∧ k = key entity' m' ∧ r = length (heap st))
            ∨ scope_cache st c' !! k = Some r) as Hnew.
  { intros c' k r. unfold st'. rewrite scope_cache_insert.
    destruct (decide (c = c')) as [<-|]; [|by right].
    rewrite lookup_insert.
    destruct (decide (key entity' m' = k)) as [<-|]; [|by right].
    intros [= <-]. by left. }
  split.
  - intros c' k r [(_&_&->)|Hold]%Hnew; simpl; rewrite length_app; simpl.
    + lia.
    + apply Hv in Hold. lia.
  - intros c1 c2 k1 k2 r [(->&_&->)|H1]%Hnew [(->&_&Hr)|H2]%Hnew;
      [done| | |by eapply Hd].
    + apply Hv in H2. lia.
    + apply Hv in H1. lia.
  - intros c' r [(_&Hk&->)|Hold]%Hnew.
    + exists plan. split; [by rewrite <-Hfree|].
      unfold deref. simpl. by apply list_lookup_middle.
    + destruct (Hs _ _ Hold) as (p&?&?). exists p. split; [done|].
      by apply lookup_app_l_Some.
Qed.

Lemma inv_step entity m o st :
  collision_free digest build_fn entity m o →
  inv entity m st → inv entity m (step digest build_fn o st).
Proof. destruct o; [apply inv_apply|intros _; apply inv_clear]. Qed.

Lemma inv_run entity m ops st :
  Forall (collision_free digest build_fn entity m) ops →
  inv entity m st → inv entity m (run digest build_fn ops st).
Proof.
  intros Hops. revert st.
  induction Hops as [|o ops Ho _ IH]; intros st Hinv; [done|].
  apply IH. by apply inv_step.
Qed.

Lemma collision_free_self entity m c :
  collision_free digest build_fn entity m (Apply c entity m).
Proof. by intros _. Qed.

(** Under the invariant a call returns the plan its arguments translate
    to, or fails as the translation does. *)
Lemma apply_result entity m c st :
  inv entity m st →
  match build_fn entity m with
  | inl err => apply_in c entity m st = (inl err, st)
  | inr plan =>
      ∃ r, (apply_in c entity m st).1 = inr r
           ∧ scope_cache (apply_in c entity m st).2 c !! key entity m = Some r
           ∧ deref (apply_in c entity m st).2 r = Some plan
  end.
Proof.
  intros Hinv.
  destruct (apply_cases c entity m st)
    as [(r&Hhit&Heq)|[(err&Hmiss&Hb&Heq)|(plan&Hmiss&Hb&Heq)]];
    rewrite Heq; simpl.
  - destruct (inv_sound _ _ _ _ _ Hinv _ _ Hhit) as (plan&->&?). eauto.
  - by rewrite Hb.
  - rewrite Hb. eexists. split; [done|].
    rewrite scope_cache_insert, decide_True, lookup_insert_eq by done.
    split; [done|]. unfold deref. simpl. by apply list_lookup_middle.
Qed.

(** C1: after any history of calls, translating [m] twice in one scope
    returns the same object and leaves the state as the first call left
    it; translating it in another scope returns a different object
    holding the same plan, the plan [m] translates to; and the calls in
    the first scope leave the cache of the other as it was.  A failing
    translation fails alike in both scopes. *)
Theorem same_object_within_scope_independent_across_scopes
    (ops : list op) (entity : string) (m : params) (c1 c2 : scope) :
  Forall (collision_free digest build_fn entity m) ops →
  c1 ≠ c2 →
  let st0 := run digest build_fn ops initial in
  let call1 := apply_in c1 entity m st0 in
  let call2 := apply_in c1 entity m call1.2 in
  let call3 := apply_in c2 entity m call2.2 in
  call2 = call1
  ∧ scope_cache call2.2 c2 = scope_cache st0 c2
  ∧ match build_fn entity m with
    | inl err => call1.1 = inl err ∧ call3.1 = inl err
    | inr plan =>
        ∃ r1 r3, call1.1 = inr r1 ∧ call3.1 = inr r3 ∧ r1 ≠ r3
                 ∧ deref call3.2 r1 = Some plan
                 ∧ deref call3.2 r3 = Some plan
    end.
Proof.
  intros Hops Hc st0 call1 call2 call3.
  assert (inv entity m st0) as H0.
  { apply inv_run; [done|apply inv_initial]. }
  assert (inv entity m call1.2) as H1.
  { apply inv_apply; [apply collision_free_self|done]. }
  assert (call2 = call1) as E2.
  { unfold call2, call1. rewrite apply_again. by destruct (apply_in _ _ _ _). }
  assert (inv entity m call3.2) as H3.
  { unfold call3. rewrite E2.
    apply inv_apply; [apply collision_free_self|done]. }
  split; [done|]. split.
  { rewrite E2. by apply apply_other_scope. }
  pose proof (apply_result entity m c1 st0 H0) as R1.
  pose proof (apply_result entity m c2 call1.2 H1) as R3.
  fold call1 in R1. unfold call3. rewrite E2. fold call1.
  destruct (build_fn entity m) as [err|plan].
  - by rewrite R3, R1.
  - destruct R1 as (r1&Hr1&Hc1&Hd1), R3 as (r3&Hr3&Hc3&Hd3).
    exists r1, r3. split_and!; [done..| |by apply apply_deref_mono|done].
    intros ->. apply Hc.
    unfold call3 in H3. rewrite E2 in H3.
    eapply (inv_disjoint _ _ _ _ _ H3); [|exact Hc3].
    by rewrite apply_other_scope.
Qed.

(** C8: after any history of calls, translating [m], clearing the cache
    of the scope and translating [m] again returns a new object, holding
    the same plan as the object returned before the clear. *)
Theorem clear_then_retranslate_new_instance
    (ops : list op) (entity : string) (m : params) (c : scope) :
  Forall (collision_free digest build_fn entity m) ops →
  let st0 := run digest build_fn ops initial in
  let call1 := apply_in c entity m st0 in
  let cleared := clear_odata_cache c call1.2 in
  let call3 := apply_in c entity m cleared in
  scope_cache cleared c = ∅
  ∧ match build_fn entity m with
    | inl err => call1.1 = inl err ∧ call3.1 = inl err
    | inr plan =>
        ∃ r1 r3, call1.1 = inr r1 ∧ call3.1 = inr r3 ∧ r1 ≠ r3
                 ∧ deref call3.2 r1 = Some plan
                 ∧ deref call3.2 r3 = Some plan
    end.
Proof.
  intros Hops st0 call1 cleared call3.
  assert (inv entity m st0) as H0.
  { apply inv_run; [done|apply inv_initial]. }
  assert (inv entity m call1.2) as H1.
  { apply inv_apply; [apply collision_free_self|done]. }
  assert (scope_cache cleared c = ∅) as Hempty.
  { unfold cleared, clear_odata_cache.
    by rewrite scope_cache_insert, decide_True. }
  split; [done|].
  pose proof (apply_result entity m c st0 H0) as R1. fold call1 in R1.
  destruct (apply_cases c entity m cleared)
    as [(r&Hhit&_)|[(err&_&Hb&Heq)|(plan&_&Hb&Heq)]].
  { by rewrite Hempty, lookup_empty in Hhit. }
  - fold call3 in Heq. rewrite Hb in *. by rewrite R1, Heq.
  - fold call3 in Heq. rewrite Hb in *.
    destruct R1 as (r1&Hr1&Hc1&Hd1).
    exists r1, (length (heap cleared)). rewrite Heq. simpl.
    split_and!; [done..| | |].
    + apply (inv_valid _ _ _ _ _ H1) in Hc1. lia.
    + by apply lookup_app_l_Some.
    + by apply list_lookup_middle.
Qed.

End Invariant.

Lemma demo_history_collision_free :
  Forall (collision_free demo_digest demo_build "test.mockmodel" demo_params)
    demo_history.
Proof.
  unfold demo_history.
  repeat apply Forall_cons_2; try apply Forall_nil_2; by vm_compute.
Qed.

Lemma same_object_within_scope_independent_across_scopes_witness :
  let m := demo_params in
  let st0 := run demo_digest demo_build demo_history initial in
  let call1 := apply_odata_query_params demo_digest demo_build 1
                 "test.mockmodel" m st0 in
  let call2 := apply_odata_query_params demo_digest demo_build 1
                 "test.mockmodel" m call1.2 in
  let call3 := apply_odata_query_params demo_digest demo_build 2
                 "test.mockmodel" m call2.2 in
  call2 = call1
  ∧ scope_cache call2.2 2 = scope_cache st0 2
  ∧ match demo_build "test.mockmodel" m with
    | inl err => call1.1 = inl err ∧ call3.1 = inl err
    | inr plan =>
        ∃ r1 r3, call1.1 = inr r1 ∧ call3.1 = inr r3 ∧ r1 ≠ r3
                 ∧ deref call3.2 r1 = Some plan
                 ∧ deref call3.2 r3 = Some plan
    end.
Proof.
  apply (same_object_within_scope_independent_across_scopes
           demo_digest demo_build demo_history "test.mockmodel"
           demo_params 1 2).
  - apply demo_history_collision_free.
  - lia.
Defined.

Lemma clear_then_retranslate_new_instance_witness :
  let m := demo_params in
  let st0 := run demo_digest demo_build demo_history initial in
  let call1 := apply_odata_query_params demo_digest demo_build 1
                 "test.mockmodel" m st0 in
  let cleared := clear_odata_cache 1 call1.2 in
  let call3 := apply_odata_query_params demo_digest demo_build 1
                 "test.mockmodel" m cleared in
  scope_cache cleared 1 = ∅
  ∧ match demo_build "test.mockmodel" m with
    | inl err => call1.1 = inl err ∧ call3.1 = inl err
    | inr plan =>
        ∃ r1 r3, call1.1 = inr r1 ∧ call3.1 = inr r3 ∧ r1 ≠ r3
                 ∧ deref call3.2 r1 = Some plan
                 ∧ deref call3.2 r3 = Some plan
    end.
Proof.
  apply (clear_then_retranslate_new_instance
           demo_digest demo_build demo_history "test.mockmodel"
           demo_params 1).
  apply demo_history_collision_free.
Defined.

(** ** Further properties of the request cache *)

(** X9: the canonical form identifies a mapping up to the order of its
    items and no further: two mappings have the same canonical form
    exactly when they have the same items, so reordering never changes
    the input of the digest and changing, adding or dropping an item
    always does. *)
Theorem canonical_form_characterises_items (m1 m2 : params) :
  well_formed m1 →
  canonical m1 = canonical m2 ↔ m1 ≡ₚ m2.
Proof.
  intros Hwf. split; [|by apply canonical_order_independent].
  intros Heq.
  by rewrite <-(canonical_Permutation m1), Heq, canonical_Permutation.
Qed.

Lemma canonical_form_characterises_items_witness :
  canonical [("$filter", "name eq 'test'"); ("$orderby", "name")]
    = canonical [("$orderby", "name"); ("$filter", "name eq 'test'")]
  ↔ [("$filter", "name eq 'test'"); ("$orderby", "name")]
      ≡ₚ [("$orderby", "name"); ("$filter", "name eq 'test'")].
Proof.
  apply (canonical_form_characterises_items
           [("$filter", "name eq 'test'"); ("$orderby", "name")]
           [("$orderby", "name"); ("$filter", "name eq 'test'")]).
  apply (bool_decide_unpack _). vm_compute. reflexivity.
Defined.

Section Allocation.

Context {Plan Error : Type}.
Context (digest : string → params → string).
Context (build_fn : string → params → Error + Plan).

#[local] Abbreviation key' := (_generate_request_cache_key digest).
#[local] Abbreviation apply_in' :=
  (apply_odata_query_params digest build_fn).

Implicit Types (st : state Plan) (c : scope) (m : params) (r : ref).

(** A call that returns an object has it cached under its key. *)
Lemma apply_cached c entity m st r :
  (apply_in' c entity m st).1 = inr r →
  scope_cache (apply_in' c entity m st).2 c !! key' entity m = Some r.
Proof.
  destruct (apply_cases digest build_fn c entity m st)
    as [(r'&Hhit&->)|[(err&_&_&->)|(plan&_&_&->)]]; simpl.
  - by intros [= <-].
  - done.
  - intros [= <-].
    by rewrite scope_cache_insert, decide_True, lookup_insert_eq.
Qed.

(** A call never drops or replaces an entry. *)
Lemma apply_keeps_entries c entity m st c' k r :
  scope_cache st c' !! k = Some r →
  scope_cache (apply_in' c entity m st).2 c' !! k = Some r.
Proof.
  intros Hold.
  destruct (apply_cases digest build_fn c entity m st)
    as [(?&_&->)|[(?&_&_&->)|(plan&Hmiss&_&->)]]; [done..|].
  simpl. rewrite scope_cache_insert.
  destruct (decide (c = c')) as [<-|]; [|done].
  rewrite lookup_insert_ne; [done|]. intros <-. congruence.
Qed.

Lemma alloc_initial : alloc_inv (initial : state Plan).
Proof.
  split; unfold scope_cache; simpl; intros *; by rewrite lookup_empty.
Qed.

Lemma alloc_step (o : op) st :
  alloc_inv st → alloc_inv (step digest build_fn o st).
Proof.
  intros [Hv Hi]. destruct o as [c entity m|c]; simpl.
  - destruct (apply_cases digest build_fn c entity m st)
      as [(?&_&->)|[(?&_&_&->)|(plan&Hmiss&_&->)]]; [done..|].
    simpl. set (st' := {| heap := heap st ++ [plan]; caches := _ |}).
    assert (∀ c' k r, scope_cache st' c' !! k = Some r →
              (c' = c ∧ k = key' entity m ∧ r = length (heap st))
              ∨ scope_cache st c' !! k = Some r) as Hnew.
    { intros c' k r. unfold st'. rewrite scope_cache_insert.
      destruct (decide (c = c')) as [<-|]; [|by right].
      rewrite lookup_insert.
      destruct (decide (key' entity m = k)) as [<-|]; [|by right].
      intros [= <-]. by left. }
    split.
    + intros c' k r [(_&_&->)|Hold]%Hnew; simpl; rewrite length_app; simpl.
      * lia.
      * apply Hv in Hold. lia.
    + intros c1 c2 k1 k2 r [(->&->&->)|H1]%Hnew [(->&->&Hr)|H2]%Hnew;
        [done| | |by eapply Hi].
      * apply Hv in H2. lia.
      * apply Hv in H1. lia.
  - assert (∀ c' k r,
              scope_cache (clear_odata_cache c st) c' !! k = Some r →
              scope_cache st c' !! k = Some r) as Hold.
    { intros c' k r. unfold clear_odata_cache. rewrite scope_cache_insert.
      destruct (decide (c = c')); [by rewrite lookup_empty|done]. }
    split.
    + intros c' k r ?%Hold. by eapply Hv.
    + intros c1 c2 k1 k2 r ?%Hold ?%Hold. by eapply Hi.
Qed.

Lemma alloc_run (ops : list op) st :
  alloc_inv st → alloc_inv (run digest build_fn ops st).
Proof.
  revert st. induction ops as [|o ops IH]; intros st Hinv; [done|].
  apply IH. by apply alloc_step.
Qed.

(** X10: after any history of calls, two successive calls that differ in
    their scope or in their cache key never return the same object,
    whether they hit or miss (the calls of
    [test_cache_miss_different_params] and
    [test_cache_miss_different_models]). *)
Theorem distinct_scope_or_key_distinct_objects
    (ops : list op) (c1 c2 : scope) (entity1 entity2 : string)
    (m1 m2 : params) (r1 r2 : ref) :
  (c1, key' entity1 m1) ≠ (c2, key' entity2 m2) →
  let st0 := run digest build_fn ops initial in
  let call1 := apply_in' c1 entity1 m1 st0 in
  let call2 := apply_in' c2 entity2 m2 call1.2 in
  call1.1 = inr r1 → call2.1 = inr r2 → r1 ≠ r2.
Proof.
  intros Hne st0 call1 call2 H1 H2 ->.
  assert (alloc_inv call2.2) as Hinv.
  { apply (alloc_step (Apply c2 entity2 m2)),
      (alloc_step (Apply c1 entity1 m1)), alloc_run, alloc_initial. }
  apply apply_cached in H1, H2.
  apply (apply_keeps_entries c2 entity2 m2) in H1.
  destruct (alloc_inj _ Hinv _ _ _ _ _ H1 H2) as [-> Hk].
  apply Hne. by rewrite Hk.
Qed.

End Allocation.

Lemma distinct_scope_or_key_distinct_objects_witness :
  let st0 := run demo_digest demo_build demo_history initial in
  let call1 := apply_odata_query_params demo_digest demo_build 1
                 "test.mockmodel" demo_params st0 in
  let call2 := apply_odata_query_params demo_digest demo_build 1
                 "test.othermodel" demo_params call1.2 in
  call1.1 = inr 2 ∧ call2.1 = inr 3 ∧ (2 : ref) ≠ 3.
Proof.
  split; [reflexivity|]. split; [reflexivity|].
  apply (distinct_scope_or_key_distinct_objects demo_digest demo_build
           demo_history 1 1 "test.mockmodel" "test.othermodel"
           demo_params demo_params 2 3).
  - vm_compute. intros [=].
  - reflexivity.
  - reflexivity.
Defined.

End RequestCacheProps.
